(** * go-workflow-template: the greeting package and the command-line entry point

    A shallow embedding of [pkg/greet] ([Hello], and the benchmark loop of
    its test file) and of [cmd/app/main.go] ([version], [main]), together
    with what [main] drives of Go's standard library: [flag.Bool] and
    [flag.Parse] on the default flag set [CommandLine], [strconv.ParseBool],
    [fmt.Println].  The library is the one of the stable Go toolchain the
    repository builds with; since Go 1.15 a flag set with [ExitOnError]
    exits with status 0 when [-h] or [-help] is given and not defined.

    Go strings are byte sequences; they are modelled as [string], whose
    characters are the 8-bit [ascii] values, so that [String.length] is Go's
    [len] and [String.get] is Go's indexing. *)

From Stdlib Require Import String Ascii List ZArith Lia Bool.
From stdpp Require Import base option list strings gmap.


(** ** Byte strings as Go indexes and slices them *)

Module GoString.

(** [len(s)] *)
Definition len (s : string) : nat := String.length s.

(** [s[i] == c]; false when [i] is out of range (the callers test the
    length first, as the Go code does). *)
Definition byte_is (s : string) (i : nat) (c : ascii) : bool :=
  match String.get i s with
  | Some b => Ascii.eqb b c
  | None => false
  end.

(** [s[n:]] *)
Fixpoint slice_from (n : nat) (s : string) : string :=
  match n, s with
  | O, _ => s
  | S k, String _ t => slice_from k t
  | S _, EmptyString => EmptyString
  end.

(** [s[0:n]] *)
Fixpoint slice_to (n : nat) (s : string) : string :=
  match n, s with
  | O, _ => EmptyString
  | S k, String c t => String c (slice_to k t)
  | S _, EmptyString => EmptyString
  end.

(** [strings.HasPrefix(s, prefix)]:
    [len(s) >= len(prefix) && s[:len(prefix)] == prefix] *)
Definition HasPrefix (s prefix : string) : bool :=
  (len prefix <=? len s) && String.eqb (slice_to (len prefix) s) prefix.

(** [strings.HasSuffix(s, suffix)]:
    [len(s) >= len(suffix) && s[len(s)-len(suffix):] == suffix] *)
Definition HasSuffix (s suffix : string) : bool :=
  (len suffix <=? len s) && String.eqb (slice_from (len s - len suffix) s) suffix.

End GoString.
Import GoString.

(** ** Package greet *)

(** [func Hello(name string) string { return "Hello, " + name + "!" }]
    Go's [+] associates to the left. *)
Definition Hello (name : string) : string :=
  ("Hello, " +:+ name) +:+ "!".

(** ** The process: observable state and the effect monad *)

(** A registered flag ([flag.Flag]).  [main] registers a boolean flag only;
    [Value] is the address of the [bool] variable behind it. *)
Record Flag := mkFlag {
  Name : string;
  Usage : string;
  Value : nat;
  DefValue : string
}.

Inductive ErrorHandling := ContinueOnError | ExitOnError | PanicOnError.

(** [flag.FlagSet] *)
Record FlagSet := mkFlagSet {
  name : string;
  parsed : bool;
  actual : gmap string Flag;
  formal : gmap string Flag;
  args : list string;
  errorHandling : ErrorHandling
}.

(** What the process writes to standard error: the calls that write, with
    their format and operands.  The [flag] package produces all of it. *)
Inductive diag :=
  | ErrLine (format : string) (operands : list string)
      (* fmt.Fprintln(f.Output(), fmt.Sprintf(format, operands...)) *)
  | UsageOf (program : string)
      (* fmt.Fprintf(CommandLine.Output(), "Usage of %s:\n", os.Args[0]) *)
  | Defaults (flags : gmap string Flag)
      (* PrintDefaults() over the registered flags *)
  | Panic (format : string) (operands : list string).
      (* the runtime's report of an unrecovered panic *)

Record World := mkWorld {
  os_Args0 : string;            (* os.Args[0] *)
  os_Args1 : list string;       (* os.Args[1:] *)
  heap : list bool;             (* the bool variables made by new(bool) *)
  CommandLine : FlagSet;        (* flag.CommandLine *)
  stdout : string;              (* bytes written to standard output *)
  stderr : list diag;           (* writes to standard error *)
  hello_log : list (string * string)
      (* ghost: the calls of greet.Hello so far, argument and result *)
}.

Inductive result (A : Type) :=
  | Ret (a : A)          (* normal completion *)
  | Exit (code : Z)      (* os.Exit(code), or the exit after a panic *)
  | OutOfFuel.           (* the model of a loop ran out of iterations *)
Arguments Ret {A} a.
Arguments Exit {A} code.
Arguments OutOfFuel {A}.

Definition M (A : Type) : Type := World → result A * World.

#[global] Instance M_ret : MRet M := λ A a w, (Ret a, w).
#[global] Instance M_bind : MBind M := λ A B f m w,
  match m w with
  | (Ret a, w') => f a w'
  | (Exit c, w') => (Exit c, w')
  | (OutOfFuel, w') => (OutOfFuel, w')
  end.

Definition os_Exit {A} (code : Z) : M A := λ w, (Exit code, w).
Definition out_of_fuel {A} : M A := λ w, (OutOfFuel, w).

Definition get_CommandLine : M FlagSet := λ w, (Ret (CommandLine w), w).
Definition put_CommandLine (f : FlagSet) : M unit := λ w,
  (Ret tt, mkWorld (os_Args0 w) (os_Args1 w) (heap w) f (stdout w) (stderr w) (hello_log w)).
Definition get_heap : M (list bool) := λ w, (Ret (heap w), w).
Definition put_heap (h : list bool) : M unit := λ w,
  (Ret tt, mkWorld (os_Args0 w) (os_Args1 w) h (CommandLine w) (stdout w) (stderr w) (hello_log w)).
Definition write_stdout (s : string) : M unit := λ w,
  (Ret tt, mkWorld (os_Args0 w) (os_Args1 w) (heap w) (CommandLine w) (stdout w +:+ s) (stderr w) (hello_log w)).
Definition write_stderr (d : diag) : M unit := λ w,
  (Ret tt, mkWorld (os_Args0 w) (os_Args1 w) (heap w) (CommandLine w) (stdout w) (stderr w ++ [d]) (hello_log w)).

(** An unrecovered panic: the runtime reports it on standard error and the
    process exits with status 2. *)
Definition panic {A} (format : string) (operands : list string) : M A :=
  _ ← write_stderr (Panic format operands); os_Exit 2.

(** [fmt.Println(s)] for one string operand: the operand and a newline. *)
Definition newline : string := String (ascii_of_nat 10) EmptyString.

Definition Println (s : string) : M unit :=
  write_stdout (s +:+ newline).

(** A call [greet.Hello(name)] made by the process.  [Hello] is pure; the
    call only adds to the ghost log. *)
Definition call_Hello (name : string) : M string := λ w,
  let r := Hello name in
  (Ret r, mkWorld (os_Args0 w) (os_Args1 w) (heap w) (CommandLine w) (stdout w) (stderr w)
                  (hello_log w ++ [(name, r)])).

(** [p := new(bool)]: a fresh variable holding the zero value. *)
Definition new_bool : M nat :=
  h ← get_heap;
  _ ← put_heap (h ++ [false]);
  mret (length h).

(** [*p], a nil or dangling [p] panics. *)
Definition load (p : nat) : M bool :=
  h ← get_heap;
  match h !! p with
  | Some v => mret v
  | None => panic "runtime error: invalid memory address or nil pointer dereference" []
  end.

(** ** strconv.ParseBool *)

(** [switch str { case "1", "t", "T", "true", "TRUE", "True": return true, nil
                  case "0", "f", "F", "false", "FALSE", "False": return false, nil }
     return false, syntaxError("ParseBool", str)] *)
Definition ParseBool (str : string) : option bool :=
  if decide (str ∈ ["1"; "t"; "T"; "true"; "TRUE"; "True"]) then Some true
  else if decide (str ∈ ["0"; "f"; "F"; "false"; "FALSE"; "False"]) then Some false
  else None.

(** [strconv.FormatBool] *)
Definition FormatBool (b : bool) : string := if b then "true" else "false".

(** ** Package flag, on the default flag set [CommandLine] *)

Module flag.

(** Errors of the package: [ErrHelp], and [errors.New] of a formatted
    message, kept as its format and operands. *)
Inductive error :=
  | ErrHelp
  | errorString (format : string) (operands : list string).

Definition is_ErrHelp (e : error) : bool :=
  match e with ErrHelp => true | errorString _ _ => false end.

(** [err.Error()], as format and operands;
    [ErrHelp = errors.New("flag: help requested")]. *)
Definition Error (e : error) : string * list string :=
  match e with
  | ErrHelp => ("flag: help requested", [])
  | errorString format operands => (format, operands)
  end.

(** [errParse = errors.New("parse error")] *)
Definition errParse : error := errorString "parse error" [].

Definition set_formal (f : FlagSet) (m : gmap string Flag) : FlagSet :=
  mkFlagSet (name f) (parsed f) (actual f) m (args f) (errorHandling f).
Definition set_actual (f : FlagSet) (m : gmap string Flag) : FlagSet :=
  mkFlagSet (name f) (parsed f) m (formal f) (args f) (errorHandling f).
Definition set_args (f : FlagSet) (l : list string) : FlagSet :=
  mkFlagSet (name f) (parsed f) (actual f) (formal f) l (errorHandling f).
Definition set_parsed (f : FlagSet) (b : bool) : FlagSet :=
  mkFlagSet (name f) b (actual f) (formal f) (args f) (errorHandling f).

(** The field [f.name], for the places where a parameter is called [name]. *)
Definition FlagSet_name (f : FlagSet) : string := name f.

(** [NewFlagSet(name, errorHandling)] *)
Definition NewFlagSet (name : string) (h : ErrorHandling) : FlagSet :=
  mkFlagSet name false ∅ ∅ [] h.

(** [f.sprintf]: format the message, print it to the output, return it. *)
Definition sprintf (format : string) (a : list string) : M (string * list string) :=
  _ ← write_stderr (ErrLine format a); mret (format, a).

(** [f.usage()] for [CommandLine]: the package-level [Usage], which prints
    the line [Usage of %s:] with [os.Args[0]] and then [PrintDefaults()]. *)
Definition usage : M unit :=
  λ w, (_ ← write_stderr (UsageOf (os_Args0 w));
        f ← get_CommandLine;
        write_stderr (Defaults (formal f))) w.

(** [f.failf]: print the formatted error and the usage message, return the
    error. *)
Definition failf (format : string) (a : list string) : M error :=
  msg ← sprintf format a;
  _ ← usage;
  mret (errorString msg.1 msg.2).

(** [boolValue.Set]: [v, err := strconv.ParseBool(s);
    if err != nil { err = errParse }; *b = boolValue(v); return err].
    [b] was made by [new(bool)], so the store is in range. *)
Definition boolValue_Set (b : nat) (s : string) : M (option error) :=
  h ← get_heap;
  match ParseBool s with
  | Some v => _ ← put_heap (<[b := v]> h); mret None
  | None => _ ← put_heap (<[b := false]> h); mret (Some errParse)
  end.

(** [strings.Contains(name, "=")] *)
Fixpoint contains_equals (s : string) : bool :=
  match s with
  | EmptyString => false
  | String c t => Ascii.eqb c "=" || contains_equals t
  end.

(** [f.Var(value, name, usage)] for a boolean value at address [p] whose
    current value is [v].  The flag set's [undef] table is empty here:
    nothing sets a flag before it is defined. *)
Definition Var (p : nat) (v : bool) (name usage : string) : M unit :=
  if HasPrefix name "-" then
    msg ← sprintf "flag %q begins with -" [name]; panic msg.1 msg.2
  else if contains_equals name then
    msg ← sprintf "flag %q contains =" [name]; panic msg.1 msg.2
  else
    f ← get_CommandLine;
    let flag := mkFlag name usage p (FormatBool v) in
    match formal f !! name with
    | Some _ =>
        msg ← (if String.eqb (FlagSet_name f) "" then sprintf "flag redefined: %s" [name]
               else sprintf "%s flag redefined: %s" [FlagSet_name f; name]);
        panic msg.1 msg.2
    | None => put_CommandLine (set_formal f (<[name := flag]> (formal f)))
    end.

(** [flag.Bool(name, value, usage)]: [CommandLine.Bool], which is
    [p := new(bool); f.BoolVar(p, name, value, usage); return p], where
    [BoolVar] is [f.Var(newBoolValue(value, p), name, usage)] and
    [newBoolValue] stores [value] into [*p]. *)
Definition Bool (name : string) (value : bool) (usage : string) : M nat :=
  p ← new_bool;
  h ← get_heap;
  _ ← put_heap (<[p := value]> h);
  _ ← Var p value name usage;
  mret p.

(** The loop of [parseOne] that looks for the value of a flag:
    [for i := 1; i < len(name); i++ { if name[i] == '=' { ... break } }].
    [index_equals t i] scans [t = name[i:]] and gives the first [i] with
    [name[i] == '=']. *)
Fixpoint index_equals (t : string) (i : nat) : option nat :=
  match t with
  | EmptyString => None
  | String c t' => if Ascii.eqb c "=" then Some i else index_equals t' (S i)
  end.

(** [f.parseOne()]: parse one flag, report whether a flag was seen.

    The registered flags of this program are boolean ([fv.IsBoolFlag()]
    holds), so the branch of a flag that needs an argument is not taken. *)
Definition parseOne : M (bool * option error) :=
  f ← get_CommandLine;
  match args f with
  | [] => mret (false, None)
  | s :: rest =>
    if (len s <? 2) || negb (byte_is s 0 "-") then mret (false, None)
    else
      let numMinuses := if byte_is s 1 "-" then 2 else 1 in
      if byte_is s 1 "-" && (len s =? 2) then
        (* "--" terminates the flags *)
        _ ← put_CommandLine (set_args f rest);
        mret (false, None)
      else
        let name := slice_from numMinuses s in
        if (len name =? 0) || byte_is name 0 "-" || byte_is name 0 "=" then
          e ← failf "bad flag syntax: %s" [s];
          mret (false, Some e)
        else
          (* it's a flag. does it have an argument? *)
          _ ← put_CommandLine (set_args f rest);
          let '(name, hasValue, value) :=
            match index_equals (slice_from 1 name) 1 with
            | Some i => (slice_to i name, true, slice_from (i + 1) name)
            | None => (name, false, "")
            end in
          f ← get_CommandLine;
          match formal f !! name with
          | None =>
            if String.eqb name "help" || String.eqb name "h" then
              (* special case for nice help message. *)
              _ ← usage;
              mret (false, Some ErrHelp)
            else
              e ← failf "flag provided but not defined: -%s" [name];
              mret (false, Some e)
          | Some flag =>
            (* special case: doesn't need an arg *)
            r ← (if hasValue then
                   err ← boolValue_Set (Value flag) value;
                   match err with
                   | Some _ =>
                     e ← failf "invalid boolean value %q for -%s: %v"
                               [value; name; "parse error"];
                     mret (Some e)
                   | None => mret None
                   end
                 else
                   err ← boolValue_Set (Value flag) "true";
                   match err with
                   | Some _ =>
                     e ← failf "invalid boolean flag %s: %v" [name; "parse error"];
                     mret (Some e)
                   | None => mret None
                   end);
            match r with
            | Some e => mret (false, Some e)
            | None =>
              f ← get_CommandLine;
              _ ← put_CommandLine (set_actual f (<[name := flag]> (actual f)));
              mret (true, None)
            end
          end
  end.

(** The loop of [f.Parse]:
    [for { seen, err := f.parseOne(); if seen { continue };
           if err == nil { break }; switch f.errorHandling { ... } }].
    Every iteration that continues has consumed an argument; [fuel] bounds
    the iterations. *)
Fixpoint Parse_loop (fuel : nat) : M (option error) :=
  match fuel with
  | O => out_of_fuel
  | S k =>
    '(seen, err) ← parseOne;
    if (seen : bool) then Parse_loop k
    else match err with
         | None => mret None
         | Some err =>
           f ← get_CommandLine;
           match errorHandling f with
           | ContinueOnError => mret (Some err)
           | ExitOnError => if is_ErrHelp err then os_Exit 0 else os_Exit 2
           | PanicOnError => panic (Error err).1 (Error err).2
           end
         end
  end.

(** [f.Parse(arguments)] *)
Definition FlagSet_Parse (arguments : list string) : M (option error) :=
  f ← get_CommandLine;
  _ ← put_CommandLine (set_args (set_parsed f true) arguments);
  Parse_loop (S (length arguments)).

(** [flag.Parse()]: [CommandLine.Parse(os.Args[1:])], errors ignored
    ([CommandLine] is set for [ExitOnError]). *)
Definition Parse : M unit :=
  λ w, (_ ← FlagSet_Parse (os_Args1 w); mret tt) w.

End flag.

(** ** cmd/app/main.go *)

(** How the binary was linked: the value given for [main.version] with the
    linker's [-X], if any.  Without it the variable keeps its initialiser. *)
Record Build := mkBuild { X_main_version : option string }.

(** [var version = "dev"] *)
Definition version (b : Build) : string :=
  match X_main_version b with
  | Some v => v
  | None => "dev"
  end.

(** [func main()] *)
Definition main (b : Build) : M unit :=
  showVersion ← flag.Bool "version" false "show version";
  _ ← flag.Parse;
  v ← load showVersion;
  if (v : bool) then
    Println (version b)
  else
    g ← call_Hello "World";
    Println g.

(** The process at start: [os.Args] is the program name [prog] followed by
    the arguments [argv] (a hosted process always has [os.Args[0]]),
    [flag.CommandLine = NewFlagSet(os.Args[0], ExitOnError)], nothing
    written yet. *)
Definition boot (prog : string) (argv : list string) : World :=
  mkWorld prog argv [] (flag.NewFlagSet prog ExitOnError) "" [] [].

(** Exit status of the process: 0 when [main] returns. *)
Definition exit_status (r : result unit) : option Z :=
  match r with
  | Ret _ => Some 0%Z
  | Exit c => Some c
  | OutOfFuel => None
  end.

(** What an observer of the process sees. *)
Record Outcome := mkOutcome {
  status : option Z;
  out : string;
  err : list diag;
  greeted : list (string * string)
}.

Definition run (b : Build) (prog : string) (argv : list string) : Outcome :=
  let '(r, w) := main b (boot prog argv) in
  mkOutcome (exit_status r) (stdout w) (stderr w) (hello_log w).

(** ** pkg/greet/greet_test.go: the benchmark loop *)

(** [func BenchmarkHello(b *testing.B) { for i := 0; i < b.N; i++ { Hello("Benchmark") } }]
    [iterations] is the number of iterations still to run, [b.N - i]. *)
Fixpoint BenchmarkHello_loop (iterations : nat) : M unit :=
  match iterations with
  | O => mret tt
  | S k => _ ← call_Hello "Benchmark"; BenchmarkHello_loop k
  end.

Definition BenchmarkHello (N : nat) : M unit := BenchmarkHello_loop N.

(** The same loop with the argument of [Hello] as a parameter:
    [for i := 0; i < N; i++ { Hello(input) }]; the benchmark is the case
    of the literal "Benchmark". *)
Fixpoint Hello_loop (input : string) (iterations : nat) : M unit :=
  match iterations with
  | O => mret tt
  | S k => _ ← call_Hello input; Hello_loop input k
  end.

(** ** The command line, as its user sees it *)

Module CommandLineSyntax.

(** The spellings [strconv.ParseBool] documents. *)
Definition true_spellings : list string := ["1"; "t"; "T"; "true"; "TRUE"; "True"].
Definition false_spellings : list string := ["0"; "f"; "F"; "false"; "FALSE"; "False"].

(** A flag is introduced by one or two dashes. *)
Definition dashes : list string := ["-"; "--"].

(** An optional [=value] after the flag's name. *)
Definition opt_value (o : option string) : string :=
  match o with
  | None => ""
  | Some v => String "=" v
  end.

(** The spellings that turn the version switch on: [-version], [--version],
    and either of them followed by [=] and a spelling of true. *)
Definition switch_on_spellings : list string :=
  d ← dashes; o ← None :: (Some <$> true_spellings);
  [d +:+ "version" +:+ opt_value o].

(** The spellings that turn it off: [=] and a spelling of false. *)
Definition switch_off_spellings : list string :=
  d ← dashes; v ← false_spellings;
  [d +:+ "version" +:+ opt_value (Some v)].

Definition version_switch (s : string) : option bool :=
  if decide (s ∈ switch_on_spellings) then Some true
  else if decide (s ∈ switch_off_spellings) then Some false
  else None.

(** A word that the parser reads as a flag: at least two bytes, the first
    one a dash. *)
Definition flag_word (s : string) : bool :=
  match s with
  | String c (String _ _) => Ascii.eqb c "-"
  | _ => false
  end.

(** A request for help: [-h], [-help], [--h] or [--help], alone or followed
    by [=] and anything. *)
Definition help_spellings : list string :=
  d ← dashes; n ← ["h"; "help"]; [d +:+ n].

Definition help_request (s : string) : bool :=
  existsb (λ p, String.eqb s p || HasPrefix s (p +:+ "=")) help_spellings.

Inductive arg_kind :=
  | Positional            (* not a flag word: the flags end here *)
  | Terminator            (* the word [--] *)
  | Switch (v : bool)     (* the version switch, on or off *)
  | Help                  (* a help request *)
  | Bad.                  (* any other flag word: unrecognized or malformed *)

Definition kind_of (s : string) : arg_kind :=
  if negb (flag_word s) then Positional
  else if String.eqb s "--" then Terminator
  else match version_switch s with
       | Some v => Switch v
       | None => if help_request s then Help else Bad
       end.

Inductive verdict :=
  | Accept (v : bool)        (* the flags were read; the switch is [v] *)
  | HelpShown
  | Rejected (bad : string).

(** Reading the command line from left to right; [v] is the switch so far. *)
Fixpoint scan (v : bool) (argv : list string) : verdict :=
  match argv with
  | [] => Accept v
  | s :: rest =>
    match kind_of s with
    | Positional | Terminator => Accept v
    | Switch v' => scan v' rest
    | Help => HelpShown
    | Bad => Rejected s
    end
  end.

End CommandLineSyntax.
Import CommandLineSyntax.

(** What the process shows when it greets, and when it prints its version. *)
Definition greeting_outcome : Outcome :=
  mkOutcome (Some 0%Z) ("Hello, World!" +:+ newline) [] [("World", "Hello, World!")].

Definition version_outcome (b : Build) : Outcome :=
  mkOutcome (Some 0%Z) (version b +:+ newline) [] [].

(** The flag that [main] registers. *)
Definition version_flag : Flag := mkFlag "version" "show version" 0 "false".

(** ** pkg/greet/greet_test.go: the table-driven test *)

Module greet_test.

(** The rows of the table: [struct { name string; want string }]. *)
Record row := mkRow { name : string; want : string }.

(** One call of [t.Errorf], with the name of the subtest that made it. *)
Record report := mkReport {
  subtest : string;
  format : string;
  operands : list string
}.

(** [*testing.T], as far as the test uses it: the names given to [t.Run],
    in order, and the calls of [t.Errorf].  A test has failed when it has
    reported an error. *)
Record T := mkT { ran : list string; errors : list report }.

Definition Failed (t : T) : bool :=
  match errors t with
  | [] => false
  | _ :: _ => true
  end.

(** [t.Errorf(format, operands...)] inside the subtest [sub]. *)
Definition Errorf (sub format : string) (operands : list string) (t : T) : T :=
  mkT (ran t) (errors t ++ [mkReport sub format operands]).

(** [t.Run(name, f)], for a body [f] that runs to its end. *)
Definition Run (sub : string) (f : string → T → T) (t : T) : T :=
  f sub (mkT (ran t ++ [sub]) (errors t)).

(** The body of the subtest of a row:
    [got := Hello(tt.name);
     if got != tt.want { t.Errorf("Hello(%q) = %q, want %q", tt.name, got, tt.want) }]
    (the row [tt] of the source is [tc] here). *)
Definition check_row (tc : row) (sub : string) (t : T) : T :=
  let got := Hello (name tc) in
  if negb (String.eqb got (want tc)) then
    Errorf sub "Hello(%q) = %q, want %q" [name tc; got; want tc] t
  else t.

(** [for _, tt := range tests { t.Run(tt.name, ...) }] *)
Fixpoint range_tests (tests : list row) (t : T) : T :=
  match tests with
  | [] => t
  | tc :: rest => range_tests rest (Run (name tc) (check_row tc) t)
  end.

(** The table of [TestHello]. *)
Definition tests : list row :=
  [mkRow "World" "Hello, World!"; mkRow "Go" "Hello, Go!"; mkRow "" "Hello, !"].

(** [func TestHello(t *testing.T)] *)
Definition TestHello (t : T) : T := range_tests tests t.

(** The report a row with a wrong expectation gives. *)
Definition mismatch (tc : row) : list report :=
  if String.eqb (Hello (name tc)) (want tc) then []
  else [mkReport (name tc) "Hello(%q) = %q, want %q"
                 [name tc; Hello (name tc); want tc]].

End greet_test.

(** ** Auxiliary definitions for the proofs about the parser *)

Import flag.

(** What a flag word with name [n] and optional value [o] is, for a flag set
    that defines only [version]. *)
Definition decide_flag (n : string) (o : option string) : arg_kind :=
  if decide (n = "version") then
    match o with
    | None => Switch true
    | Some v => match ParseBool v with Some b => Switch b | None => Bad end
    end
  else if decide (n ∈ ["h"; "help"]) then Help
  else Bad.

(** A flag name as [parseOne] accepts it before it looks the flag up: not
    empty, not starting with a dash, with no [=] in it. *)
Definition good_name (n : string) : Prop :=
  (∃ c t, n = String c t ∧ c ≠ "-"%char) ∧ contains_equals n = false.

(** The world after [f.args = rest]. *)
Definition with_args (rest : list string) (w : World) : World :=
  mkWorld (os_Args0 w) (os_Args1 w) (heap w) (set_args (CommandLine w) rest)
          (stdout w) (stderr w) (hello_log w).

(** The world after [f.usage()]. *)
Definition with_usage (w : World) : World :=
  mkWorld (os_Args0 w) (os_Args1 w) (heap w) (CommandLine w) (stdout w)
          (stderr w ++ [UsageOf (os_Args0 w); Defaults (formal (CommandLine w))])
          (hello_log w).

(** The world after [f.failf(format, operands...)]. *)
Definition with_error (format : string) (operands : list string) (w : World) : World :=
  mkWorld (os_Args0 w) (os_Args1 w) (heap w) (CommandLine w) (stdout w)
          (stderr w ++ [ErrLine format operands; UsageOf (os_Args0 w);
                        Defaults (formal (CommandLine w))])
          (hello_log w).

(** The world after the switch was stored and recorded in [f.actual]. *)
Definition with_switch (v : bool) (w : World) : World :=
  mkWorld (os_Args0 w) (os_Args1 w) (<[0 := v]> (heap w))
          (set_actual (CommandLine w) (<["version" := version_flag]> (actual (CommandLine w))))
          (stdout w) (stderr w) (hello_log w).

(** The world after [*showVersion = v]. *)
Definition with_store (v : bool) (w : World) : World :=
  mkWorld (os_Args0 w) (os_Args1 w) (<[0 := v]> (heap w)) (CommandLine w)
          (stdout w) (stderr w) (hello_log w).

(** The flag set once [main] has registered its flag. *)
Definition registered (w : World) : Prop :=
  formal (CommandLine w) = {["version" := version_flag]}.

(** The result of [parseOne] on a well-formed flag word, by name and value. *)
Definition parse_flag (n : string) (o : option string) (rest : list string) (w : World)
  : result (bool * option error) * World :=
  let w1 := with_args rest w in
  if decide (n = "version") then
    match o with
    | None => (Ret (true, None), with_switch true w1)
    | Some v =>
      match ParseBool v with
      | Some b => (Ret (true, None), with_switch b w1)
      | None =>
        (Ret (false, Some (errorString "invalid boolean value %q for -%s: %v"
                                       [v; n; "parse error"])),
         with_error "invalid boolean value %q for -%s: %v" [v; n; "parse error"]
                    (with_store false w1))
      end
    end
  else if decide (n ∈ ["h"; "help"]) then
    (Ret (false, Some ErrHelp), with_usage w1)
  else
    (Ret (false, Some (errorString "flag provided but not defined: -%s" [n])),
     with_error "flag provided but not defined: -%s" [n] w1).

(** The part of [parseOne] that follows the extraction of [name] from the
    word [s]; [parseOne_dash] and [parseOne_dashdash] below show that
    [parseOne] is this on a flag word. *)
Definition parse_named (s name : string) (rest : list string) : M (bool * option error) :=
  f ← get_CommandLine;
  if (len name =? 0) || byte_is name 0 "-" || byte_is name 0 "=" then
    e ← failf "bad flag syntax: %s" [s];
    mret (false, Some e)
  else
    _ ← put_CommandLine (set_args f rest);
    let '(name, hasValue, value) :=
      match index_equals (slice_from 1 name) 1 with
      | Some i => (slice_to i name, true, slice_from (i + 1) name)
      | None => (name, false, "")
      end in
    f ← get_CommandLine;
    match formal f !! name with
    | None =>
      if String.eqb name "help" || String.eqb name "h" then
        _ ← usage;
        mret (false, Some ErrHelp)
      else
        e ← failf "flag provided but not defined: -%s" [name];
        mret (false, Some e)
    | Some flag =>
      r ← (if hasValue then
             err ← boolValue_Set (Value flag) value;
             match err with
             | Some _ =>
               e ← failf "invalid boolean value %q for -%s: %v"
                         [value; name; "parse error"];
               mret (Some e)
             | None => mret None
             end
           else
             err ← boolValue_Set (Value flag) "true";
             match err with
             | Some _ =>
               e ← failf "invalid boolean flag %s: %v" [name; "parse error"];
               mret (Some e)
             | None => mret None
             end);
      match r with
      | Some e => mret (false, Some e)
      | None =>
        f ← get_CommandLine;
        _ ← put_CommandLine (set_actual f (<[name := flag]> (actual f)));
        mret (true, None)
      end
    end.

(** How a flag word with bad syntax begins. *)
Definition bad_syntax_prefixes : list string := ["-="; "---"; "--="].

(** Worlds that differ at most in the memory and in the parser's own
    bookkeeping ([args], [actual]). *)
Definition same_setup (w0 w : World) : Prop :=
  os_Args0 w0 = os_Args0 w ∧ stdout w0 = stdout w ∧ stderr w0 = stderr w
  ∧ hello_log w0 = hello_log w
  ∧ formal (CommandLine w0) = formal (CommandLine w)
  ∧ errorHandling (CommandLine w0) = errorHandling (CommandLine w).

(** What [parseOne] returns on a word of each kind, [rest] being the words
    after it. *)
Definition parse_step (k : arg_kind) (rest : list string) (w : World)
    (r : result (bool * option error) * World) : Prop :=
  match k with
  | Positional => r = (Ret (false, None), w)
  | Terminator => r = (Ret (false, None), with_args rest w)
  | Switch v => r = (Ret (true, None), with_switch v (with_args rest w))
  | Help => r = (Ret (false, Some ErrHelp), with_usage (with_args rest w))
  | Bad => ∃ format operands w0,
      r = (Ret (false, Some (errorString format operands)),
           with_error format operands w0)
      ∧ same_setup w0 w
  end.

(** What the loop of [Parse] returns for each verdict of [scan]. *)
Definition loop_outcome (v : verdict) (w : World) (r : result (option error) * World) : Prop :=
  match v with
  | Accept v' => ∃ w',
      r = (Ret None, w') ∧ heap w' = [v'] ∧ stdout w' = stdout w
      ∧ stderr w' = stderr w ∧ hello_log w' = hello_log w
  | HelpShown => ∃ w',
      r = (Exit 0, w') ∧ stdout w' = stdout w
      ∧ stderr w' = stderr w ++ [UsageOf (os_Args0 w); Defaults (formal (CommandLine w))]
      ∧ hello_log w' = hello_log w
  | Rejected _ => ∃ w' format operands,
      r = (Exit 2, w') ∧ stdout w' = stdout w
      ∧ stderr w' = stderr w ++ [ErrLine format operands; UsageOf (os_Args0 w);
                                 Defaults (formal (CommandLine w))]
      ∧ hello_log w' = hello_log w
  end.

(** The world in which the loop of [flag.Parse] starts. *)
Definition parse_ready (prog : string) (argv : list string) : World :=
  mkWorld prog argv [false]
    (mkFlagSet prog true ∅ {["version" := version_flag]} argv ExitOnError) "" [] [].

(** The rest of [main] after [flag.Parse()]. *)
Definition after_Parse (b : Build) (r : result (option error) * World)
  : result unit * World :=
  match r with
  | (Ret _, w') =>
    (v ← load 0;
     if (v : bool) then Println (version b)
     else g ← call_Hello "World"; Println g) w'
  | (Exit c, w') => (Exit c, w')
  | (OutOfFuel, w') => (OutOfFuel, w')
  end.

(** ** What the command line amounts to *)

(** The switch after the words [pre], all of them spellings of the switch,
    starting from [v]: the last spelling decides. *)
Definition switch_after (v : bool) (pre : list string) : bool :=
  foldl (λ acc s, default acc (version_switch s)) v pre.

(** The flags end at the head of [post]: there is no word left, or the next
    one is not a flag word, or it is the terminator [--]. *)
Definition flags_end (post : list string) : bool :=
  match post with
  | [] => true
  | a :: _ => negb (flag_word a) || String.eqb a "--"
  end.

(** What the process shows when it is asked for help, and when it rejects
    the command line with a diagnostic. *)
Definition usage_outcome (prog : string) : Outcome :=
  mkOutcome (Some 0%Z) "" [UsageOf prog; Defaults {["version" := version_flag]}] [].

Definition rejected_outcome (prog format : string) (operands : list string) : Outcome :=
  mkOutcome (Some 2%Z) ""
    [ErrLine format operands; UsageOf prog; Defaults {["version" := version_flag]}] [].

(** * Properties *)

(** ** Byte strings *)

Section StringFacts.

Implicit Types s t u : string.

Lemma append_cons c s t : String c s +:+ t = String c (s +:+ t).
Proof. reflexivity. Qed.

Lemma append_empty_l s : "" +:+ s = s.
Proof. reflexivity. Qed.

Lemma append_assoc s t u : (s +:+ t) +:+ u = s +:+ (t +:+ u).
Proof.
  induction s as [|c s IH]; [done|].
  by rewrite !append_cons, IH.
Qed.

Lemma append_empty_r s : s +:+ "" = s.
Proof.
  induction s as [|c s IH]; [done|].
  by rewrite append_cons, IH.
Qed.

Lemma len_append s t : len (s +:+ t) = len s + len t.
Proof.
  unfold len. induction s as [|c s IH]; [done|].
  rewrite append_cons. simpl. by rewrite IH.
Qed.

Lemma slice_to_append s t : slice_to (len s) (s +:+ t) = s.
Proof.
  unfold len. induction s as [|c s IH]; [by destruct t|].
  rewrite append_cons. simpl. by rewrite IH.
Qed.

Lemma slice_from_append s t : slice_from (len s) (s +:+ t) = t.
Proof.
  unfold len. induction s as [|c s IH]; [done|].
  rewrite append_cons. simpl. done.
Qed.

Lemma slice_to_from n s : slice_to n s +:+ slice_from n s = s.
Proof.
  revert s. induction n as [|n IH]; intros [|c s]; try done.
  simpl. by rewrite append_cons, IH.
Qed.

Lemma HasPrefix_append s t : HasPrefix (s +:+ t) s = true.
Proof.
  unfold HasPrefix. rewrite len_append, slice_to_append, String.eqb_refl.
  rewrite andb_true_r. apply Nat.leb_le. lia.
Qed.

Lemma HasPrefix_inv s p : HasPrefix s p = true → ∃ r, s = p +:+ r.
Proof.
  unfold HasPrefix. intros [_ H%String.eqb_eq]%andb_true_iff.
  exists (slice_from (len p) s). rewrite <- H at 1. by rewrite slice_to_from.
Qed.

Lemma HasSuffix_append s t : HasSuffix (s +:+ t) t = true.
Proof.
  unfold HasSuffix. rewrite len_append.
  replace (len s + len t - len t) with (len s) by lia.
  rewrite slice_from_append, String.eqb_refl, andb_true_r.
  apply Nat.leb_le. lia.
Qed.

Lemma list_ascii_append s t :
  list_ascii_of_string (s +:+ t) = list_ascii_of_string s ++ list_ascii_of_string t.
Proof.
  induction s as [|c s IH]; [done|].
  rewrite append_cons. simpl. by rewrite IH.
Qed.

End StringFacts.

(** ** The greeting function *)

(** C1.  For every input [n], empty or made of any bytes, [Hello n] is
    exactly the concatenation of ["Hello, "], [n] and ["!"] (also byte by
    byte); in particular Hello("World") = "Hello, World!",
    Hello("Go") = "Hello, Go!" and Hello("") = "Hello, !". *)
Theorem Hello_is_concatenation :
  (∀ n : string,
      Hello n = "Hello, " +:+ n +:+ "!"
      ∧ list_ascii_of_string (Hello n)
        = list_ascii_of_string "Hello, " ++ list_ascii_of_string n ++ list_ascii_of_string "!")
  ∧ Hello "World" = "Hello, World!"
  ∧ Hello "Go" = "Hello, Go!"
  ∧ Hello "" = "Hello, !".
Proof.
  split; [|done].
  intros n. unfold Hello. rewrite append_assoc. split; [done|].
  by rewrite !list_ascii_append.
Qed.

(** C5.  [Hello] is total: a call made from any state of the process
    completes normally with a result; it neither exits, nor panics, nor
    runs forever, and it leaves the flags, the memory and both output
    streams as they were. *)
Theorem Hello_total (n : string) (w : World) :
  ∃ (r : string) (w' : World),
    call_Hello n w = (Ret r, w')
    ∧ r = Hello n
    ∧ (∀ c, call_Hello n w ≠ (Exit c, w'))
    ∧ call_Hello n w ≠ (OutOfFuel, w')
    ∧ stdout w' = stdout w ∧ stderr w' = stderr w
    ∧ heap w' = heap w ∧ CommandLine w' = CommandLine w
    ∧ os_Args0 w' = os_Args0 w ∧ os_Args1 w' = os_Args1 w.
Proof.
  eexists _, _. split; [reflexivity|].
  unfold call_Hello; simpl. repeat split; try done.
Qed.

(** C6.  [Hello] is deterministic: two calls with equal inputs return equal
    outputs, whatever the states of the process they are made in. *)
Theorem Hello_deterministic (n1 n2 : string) (w1 w2 : World) :
  n1 = n2 →
  Hello n1 = Hello n2 ∧ (call_Hello n1 w1).1 = (call_Hello n2 w2).1.
Proof. intros ->. done. Qed.

Lemma Hello_deterministic_witness :
  "Go" = "Go"
  ∧ Hello "Go" = Hello "Go"
  ∧ (call_Hello "Go" (boot "app" [])).1 = (call_Hello "Go" (boot "app" ["--version"])).1.
Proof.
  split; [reflexivity|].
  apply (Hello_deterministic "Go" "Go" (boot "app" []) (boot "app" ["--version"])).
  reflexivity.
Defined.

Lemma Hello_loop_run (input : string) (k : nat) (w : World) :
  Hello_loop input k w =
  (Ret tt, mkWorld (os_Args0 w) (os_Args1 w) (heap w) (CommandLine w) (stdout w) (stderr w)
             (hello_log w ++ replicate k (input, Hello input))).
Proof.
  revert w. induction k as [|k IH]; intros w.
  - simpl. rewrite app_nil_r. by destruct w.
  - change (Hello_loop input (S k) w)
      with (Hello_loop input k (call_Hello input w).2).
    rewrite IH. simpl. by rewrite <- app_assoc.
Qed.

Lemma BenchmarkHello_is_Hello_loop (N : nat) (w : World) :
  BenchmarkHello N w = Hello_loop "Benchmark" N w.
Proof.
  unfold BenchmarkHello. revert w. induction N as [|N IH]; intros w; [done|].
  change (BenchmarkHello_loop (S N) w)
    with (BenchmarkHello_loop N (call_Hello "Benchmark" w).2).
  change (Hello_loop "Benchmark" (S N) w)
    with (Hello_loop "Benchmark" N (call_Hello "Benchmark" w).2).
  apply IH.
Qed.

(** C7.  Calling [Hello] again and again with one fixed input, whatever the
    input, any number [N] of times and from any state, completes and leaves
    every part of the state as it was: nothing accumulates, and each of the
    [N] calls was given the input and returned the value of the first,
    [Hello input].  The benchmark loop is this loop for the input
    "Benchmark". *)
Theorem repeated_Hello_no_effect (input : string) (N : nat) (w : World) :
  (∃ w' : World,
      Hello_loop input N w = (Ret tt, w')
      ∧ stdout w' = stdout w ∧ stderr w' = stderr w
      ∧ heap w' = heap w ∧ CommandLine w' = CommandLine w
      ∧ os_Args0 w' = os_Args0 w ∧ os_Args1 w' = os_Args1 w
      ∧ hello_log w' = hello_log w ++ replicate N (input, Hello input)
      ∧ ∀ i call, hello_log w' !! (length (hello_log w) + i) = Some call →
          call = (input, Hello input))
  ∧ BenchmarkHello N w = Hello_loop "Benchmark" N w.
Proof.
  split; [|apply BenchmarkHello_is_Hello_loop].
  eexists. rewrite Hello_loop_run.
  split; [reflexivity|]. simpl. repeat split; try done.
  intros i call. rewrite lookup_app_r by lia.
  replace (length (hello_log w) + i - length (hello_log w)) with i by lia.
  by intros [-> _]%lookup_replicate.
Qed.

(** C10.  For every input [n], [Hello n] has [8 + len n] bytes, begins with
    "Hello, ", ends with "!", and is never empty. *)
Theorem Hello_shape (n : string) :
  len (Hello n) = 8 + len n
  ∧ HasPrefix (Hello n) "Hello, " = true
  ∧ HasSuffix (Hello n) "!" = true
  ∧ Hello n ≠ "".
Proof.
  split; [|split; [|split]].
  - unfold Hello. rewrite !len_append. simpl. lia.
  - unfold Hello. rewrite append_assoc. apply HasPrefix_append.
  - unfold Hello. apply HasSuffix_append.
  - done.
Qed.

(** ** The flag parser against the command-line syntax *)

Lemma index_equals_append n o i :
  contains_equals n = false →
  index_equals (n +:+ opt_value o) i
  = match o with None => None | Some _ => Some (i + len n) end.
Proof.
  revert i. induction n as [|c n IH]; intros i Hn.
  - destruct o; simpl; [by rewrite Nat.add_0_r | done].
  - simpl in Hn. apply orb_false_iff in Hn as [Hc Hn].
    rewrite append_cons. simpl. rewrite Hc, IH by done.
    destruct o; [|done]. f_equal. unfold len. simpl. lia.
Qed.

Lemma split_unique n1 n2 o1 o2 :
  contains_equals n1 = false → contains_equals n2 = false →
  n1 +:+ opt_value o1 = n2 +:+ opt_value o2 → n1 = n2 ∧ o1 = o2.
Proof.
  revert n2. induction n1 as [|c1 n1 IH]; intros [|c2 n2] H1 H2 E.
  - split; [done|]. rewrite !append_empty_l in E.
    destruct o1, o2; simpl in E; try done. by inversion E.
  - exfalso. rewrite append_empty_l, append_cons in E.
    simpl in H2. apply orb_false_iff in H2 as [Hc _].
    destruct o1; simpl in E; [|done]. inversion E; subst. done.
  - exfalso. rewrite append_empty_l, append_cons in E.
    simpl in H1. apply orb_false_iff in H1 as [Hc _].
    destruct o2; simpl in E; [|done]. inversion E; subst. done.
  - rewrite !append_cons in E. inversion E; subst.
    simpl in H1, H2.
    apply orb_false_iff in H1 as [_ H1]. apply orb_false_iff in H2 as [_ H2].
    destruct (IH n2 H1 H2) as [-> ->]; done.
Qed.

Lemma split_exists t :
  ∃ n o, t = n +:+ opt_value o ∧ contains_equals n = false.
Proof.
  induction t as [|c t (n & o & -> & Hn)].
  - by exists "", None.
  - destruct (Ascii.eqb c "=") eqn:Hc.
    + apply Ascii.eqb_eq in Hc as ->. by exists "", (Some (n +:+ opt_value o)).
    + exists (String c n), o. split; [done|]. simpl. by rewrite Hc.
Qed.

Lemma ParseBool_true v : ParseBool v = Some true ↔ v ∈ true_spellings.
Proof.
  unfold ParseBool, true_spellings. repeat case_decide; split; done.
Qed.

Lemma spellings_disjoint v : v ∈ true_spellings → v ∉ false_spellings.
Proof.
  revert v. apply Forall_forall.
  apply (bool_decide_unpack _). vm_compute. exact I.
Qed.

Lemma ParseBool_false v : ParseBool v = Some false ↔ v ∈ false_spellings.
Proof.
  pose proof (spellings_disjoint v).
  unfold ParseBool. fold true_spellings false_spellings.
  repeat case_decide; split; try done. intros ?. exfalso. by apply H.
Qed.

Lemma ParseBool_None v :
  ParseBool v = None ↔ (v ∉ true_spellings) ∧ (v ∉ false_spellings).
Proof.
  unfold ParseBool. fold true_spellings false_spellings.
  repeat case_decide; split; try done; by intros [].
Qed.

Lemma elem_switch_on s :
  s ∈ switch_on_spellings ↔
  ∃ d o, d ∈ dashes ∧ (o = None ∨ ∃ v, o = Some v ∧ v ∈ true_spellings)
         ∧ s = d +:+ "version" +:+ opt_value o.
Proof.
  unfold switch_on_spellings. rewrite list_elem_of_bind. split.
  - intros (d & Hs & Hd). apply list_elem_of_bind in Hs as (o & Hs & Ho).
    apply list_elem_of_singleton in Hs. exists d, o. split; [done|]. split; [|done].
    apply elem_of_cons in Ho as [->|Ho]; [by left|right].
    apply list_elem_of_fmap in Ho as (v & -> & Hv). eauto.
  - intros (d & o & Hd & Ho & ->). exists d. split; [|done].
    apply list_elem_of_bind. exists o. split; [by apply list_elem_of_singleton|].
    destruct Ho as [->|(v & -> & Hv)]; [by left|right].
    apply list_elem_of_fmap. eauto.
Qed.

Lemma elem_switch_off s :
  s ∈ switch_off_spellings ↔
  ∃ d v, d ∈ dashes ∧ v ∈ false_spellings ∧ s = d +:+ "version" +:+ opt_value (Some v).
Proof.
  unfold switch_off_spellings. rewrite list_elem_of_bind. split.
  - intros (d & Hs & Hd). apply list_elem_of_bind in Hs as (v & Hs & Hv).
    apply list_elem_of_singleton in Hs. by exists d, v.
  - intros (d & v & Hd & Hv & ->). exists d. split; [|done].
    apply list_elem_of_bind. exists v. split; [by apply list_elem_of_singleton|done].
Qed.

Lemma elem_help_spellings p :
  p ∈ help_spellings ↔ ∃ d n, d ∈ dashes ∧ n ∈ ["h"; "help"] ∧ p = d +:+ n.
Proof.
  unfold help_spellings. rewrite list_elem_of_bind. split.
  - intros (d & Hs & Hd). apply list_elem_of_bind in Hs as (v & Hs & Hv).
    apply list_elem_of_singleton in Hs. by exists d, v.
  - intros (d & v & Hd & Hv & ->). exists d. split; [|done].
    apply list_elem_of_bind. exists v. split; [by apply list_elem_of_singleton|done].
Qed.

Lemma help_request_spec s :
  help_request s = true ↔
  ∃ d n o, d ∈ dashes ∧ n ∈ ["h"; "help"] ∧ s = d +:+ n +:+ opt_value o.
Proof.
  unfold help_request. rewrite existsb_exists. split.
  - intros (p & Hp%list_elem_of_In%elem_help_spellings & Hs).
    destruct Hp as (d & n & Hd & Hn & ->).
    apply orb_true_iff in Hs as [->%String.eqb_eq | (r & ->)%HasPrefix_inv].
    + exists d, n, None. by rewrite append_empty_r.
    + exists d, n, (Some r). by rewrite !append_assoc.
  - intros (d & n & o & Hd & Hn & ->). exists (d +:+ n). split.
    + apply list_elem_of_In, elem_help_spellings. eauto.
    + apply orb_true_iff. destruct o as [v|]; [right|left].
      * replace (d +:+ n +:+ opt_value (Some v)) with (((d +:+ n) +:+ "=") +:+ v)
          by (by rewrite !append_assoc).
        apply HasPrefix_append.
      * simpl. rewrite append_empty_r. apply String.eqb_refl.
Qed.

Lemma good_name_version : good_name "version".
Proof. split; [|done]. by eexists _, _. Qed.

Lemma good_name_help n : n ∈ ["h"; "help"] → good_name n.
Proof.
  intros [->|[->|[]%elem_of_nil]%elem_of_cons]%elem_of_cons;
    (split; [|done]); by eexists _, _.
Qed.

Lemma flag_unique d d' n n' o o' :
  d ∈ dashes → d' ∈ dashes → good_name n → good_name n' →
  d +:+ n +:+ opt_value o = d' +:+ n' +:+ opt_value o' →
  d = d' ∧ n = n' ∧ o = o'.
Proof.
  intros Hd Hd' [(c & t & -> & Hc) Hn] [(c' & t' & -> & Hc') Hn'] E.
  assert (d = d' ∧ String c t +:+ opt_value o = String c' t' +:+ opt_value o')
    as [-> E'].
  { unfold dashes in *.
    apply elem_of_cons in Hd as [->|[->|[]%elem_of_nil]%elem_of_cons];
    apply elem_of_cons in Hd' as [->|[->|[]%elem_of_nil]%elem_of_cons];
    rewrite ?append_cons, ?append_empty_l in E; inversion E; subst; try done.
    all: split; [done|]; rewrite !append_cons; congruence. }
  split; [done|]. by apply split_unique.
Qed.

Lemma version_switch_flag d n o :
  d ∈ dashes → good_name n →
  version_switch (d +:+ n +:+ opt_value o)
  = if decide (n = "version") then
      match o with None => Some true | Some v => ParseBool v end
    else None.
Proof.
  intros Hd Hn. unfold version_switch.
  assert (Hon : d +:+ n +:+ opt_value o ∈ switch_on_spellings ↔
          n = "version" ∧ (o = None ∨ ∃ v, o = Some v ∧ v ∈ true_spellings)).
  { rewrite elem_switch_on. split.
    - intros (d' & o' & Hd' & Ho' & E).
      apply flag_unique in E as (-> & -> & ->); auto using good_name_version.
    - intros [-> Ho]. eauto. }
  assert (Hoff : d +:+ n +:+ opt_value o ∈ switch_off_spellings ↔
          n = "version" ∧ ∃ v, o = Some v ∧ v ∈ false_spellings).
  { rewrite elem_switch_off. split.
    - intros (d' & v & Hd' & Hv & E).
      apply flag_unique in E as (-> & -> & ->); eauto using good_name_version.
    - intros [-> (v & -> & Hv)]. eauto. }
  destruct (decide (n = "version")) as [->|Hv].
  - destruct o as [v|].
    + destruct (ParseBool v) as [[]|] eqn:Hp.
      * apply ParseBool_true in Hp. rewrite decide_True; [done|]. apply Hon. eauto.
      * apply ParseBool_false in Hp.
        rewrite decide_False, decide_True; [done| |].
        -- apply Hoff. eauto.
        -- rewrite Hon. intros [_ [?|(v' & [= <-] & Hv')]]; [done|].
           by eapply spellings_disjoint.
      * apply ParseBool_None in Hp as [Ht Hf].
        rewrite !decide_False; [done| |].
        -- rewrite Hoff. by intros [_ (v' & [= <-] & Hv')].
        -- rewrite Hon. by intros [_ [?|(v' & [= <-] & Hv')]].
    + rewrite decide_True; [done|]. apply Hon. eauto.
  - rewrite !decide_False; [done| |].
    + rewrite Hoff. by intros [? _].
    + rewrite Hon. by intros [? _].
Qed.

Lemma help_request_flag d n o :
  d ∈ dashes → good_name n →
  help_request (d +:+ n +:+ opt_value o) = bool_decide (n ∈ ["h"; "help"]).
Proof.
  intros Hd Hn. case_bool_decide as Hh.
  - apply help_request_spec. by exists d, n, o.
  - apply not_true_is_false. intros (d' & n' & o' & Hd' & Hn' & E)%help_request_spec.
    apply flag_unique in E as (-> & -> & ->); auto using good_name_help.
Qed.

Lemma flag_word_dashes d c x : d ∈ dashes → flag_word (d +:+ String c x) = true.
Proof.
  intros [->|[->|[]%elem_of_nil]%elem_of_cons]%elem_of_cons; reflexivity.
Qed.

Lemma not_terminator d c x :
  d ∈ dashes → c ≠ "-"%char → String.eqb (d +:+ String c x) "--" = false.
Proof.
  intros Hd Hc. apply String.eqb_neq. intros E.
  apply elem_of_cons in Hd as [->|[->|[]%elem_of_nil]%elem_of_cons];
    rewrite ?append_cons, ?append_empty_l in E; inversion E; congruence.
Qed.

Lemma kind_of_flag d n o :
  d ∈ dashes → good_name n →
  kind_of (d +:+ n +:+ opt_value o) = decide_flag n o.
Proof.
  intros Hd Hn. unfold kind_of, decide_flag.
  rewrite version_switch_flag, help_request_flag by done.
  destruct Hn as [(c & t & -> & Hc) Hn].
  rewrite append_cons, flag_word_dashes, not_terminator by done. simpl.
  destruct (decide (String c t = "version")) as [->|Hv].
  - destruct o as [v|]; [|done]. by destruct (ParseBool v).
  - case_bool_decide; by case_decide.
Qed.

Lemma failf_run format a w :
  failf format a w = (Ret (errorString format a), with_error format a w).
Proof.
  unfold failf, sprintf, usage, with_error, mbind, M_bind, mret, M_ret,
    write_stderr, get_CommandLine. simpl. by rewrite <- !app_assoc.
Qed.

Lemma index_equals_name c n o :
  contains_equals (String c n) = false →
  index_equals (slice_from 1 (String c n +:+ opt_value o)) 1
  = match o with None => None | Some _ => Some (len (String c n)) end.
Proof.
  intros [_ Hn]%orb_false_iff. rewrite append_cons. simpl.
  rewrite index_equals_append by done. by destruct o.
Qed.

Lemma byte_is_0 c s x : byte_is (String c s) 0 x = Ascii.eqb c x.
Proof. reflexivity. Qed.

Lemma byte_is_1 c c' s x : byte_is (String c (String c' s)) 1 x = Ascii.eqb c' x.
Proof. reflexivity. Qed.

Lemma len_cons c s : len (String c s) = S (len s).
Proof. reflexivity. Qed.

Lemma slice_from_value n v :
  slice_from (len n + 1) (n +:+ String "=" v) = v.
Proof.
  replace (len n + 1) with (len (n +:+ "=")) by (by rewrite len_append).
  replace (n +:+ String "=" v) with ((n +:+ "=") +:+ v) by (by rewrite append_assoc).
  apply slice_from_append.
Qed.

Lemma bind_get_CommandLine {A} (k : FlagSet → M A) w :
  (get_CommandLine ≫= k) w = k (CommandLine w) w.
Proof. reflexivity. Qed.

Lemma bind_put_CommandLine {A} (k : unit → M A) f w :
  (put_CommandLine f ≫= k) w
  = k tt (mkWorld (os_Args0 w) (os_Args1 w) (heap w) f (stdout w) (stderr w) (hello_log w)).
Proof. reflexivity. Qed.

Lemma parseOne_dash c x rest w :
  c ≠ "-"%char →
  args (CommandLine w) = String "-" (String c x) :: rest →
  parseOne w = parse_named (String "-" (String c x)) (String c x) rest w.
Proof.
  intros Hc%Ascii.eqb_neq Hargs.
  unfold parseOne, parse_named. rewrite !bind_get_CommandLine, Hargs.
  rewrite !byte_is_1, Hc. reflexivity.
Qed.

Lemma parseOne_dashdash c x rest w :
  args (CommandLine w) = String "-" (String "-" (String c x)) :: rest →
  parseOne w = parse_named (String "-" (String "-" (String c x))) (String c x) rest w.
Proof.
  intros Hargs.
  unfold parseOne, parse_named. rewrite !bind_get_CommandLine, Hargs.
  reflexivity.
Qed.

Ltac run_monad :=
  unfold boolValue_Set, failf, sprintf, usage, mbind, M_bind, mret, M_ret,
    get_heap, put_heap, get_CommandLine, put_CommandLine, write_stderr,
    with_error, with_store, with_args, with_usage, with_switch;
  simpl; rewrite <- ?app_assoc; try reflexivity.

Lemma help_name_eqb n :
  String.eqb n "help" || String.eqb n "h" = bool_decide (n ∈ ["h"; "help"]).
Proof.
  case_bool_decide as Hh.
  - apply elem_of_cons in Hh as [->|[->|[]%elem_of_nil]%elem_of_cons]; done.
  - apply orb_false_iff. split; apply String.eqb_neq; intros ->; apply Hh.
    + apply elem_of_cons. right. by apply elem_of_cons; left.
    + by apply elem_of_cons; left.
Qed.

Lemma parse_named_flag s c t o rest w :
  c ≠ "-"%char → contains_equals (String c t) = false → registered w →
  parse_named s (String c t +:+ opt_value o) rest w = parse_flag (String c t) o rest w.
Proof.
  intros Hc%Ascii.eqb_neq Hn Hreg.
  pose proof (index_equals_name c t o Hn) as Hidx.
  assert (Hc' : Ascii.eqb c "=" = false) by (by apply orb_false_iff in Hn as [? _]).
  unfold parse_named. rewrite bind_get_CommandLine.
  rewrite append_cons in *. rewrite !byte_is_0, Hc, Hc', len_cons.
  cbn [Nat.eqb orb]. rewrite bind_put_CommandLine, Hidx.
  unfold parse_flag.
  destruct o as [v|].
  - change (String c (t +:+ opt_value (Some v))) with (String c t +:+ String "=" v).
    rewrite slice_to_append, slice_from_value. cbv beta iota zeta.
    rewrite bind_get_CommandLine.
    change (formal (CommandLine _)) with (formal (CommandLine w)).
    rewrite Hreg, lookup_singleton.
    destruct (decide (String c t = "version")) as [Hv|Hv].
    + rewrite Hv. rewrite decide_True by done.
      run_monad. destruct (ParseBool v) as [b|]; run_monad.
    + rewrite decide_False by done.
      rewrite help_name_eqb.
      case_bool_decide; [rewrite decide_True by done | rewrite decide_False by done];
        run_monad.
  - change (String c (t +:+ opt_value None)) with (String c t +:+ "").
    rewrite append_empty_r. cbv beta iota zeta.
    rewrite bind_get_CommandLine.
    change (formal (CommandLine _)) with (formal (CommandLine w)).
    rewrite Hreg, lookup_singleton.
    destruct (decide (String c t = "version")) as [Hv|Hv].
    + rewrite Hv. rewrite decide_True by done. run_monad.
    + rewrite decide_False by done.
      rewrite help_name_eqb.
      case_bool_decide; [rewrite decide_True by done | rewrite decide_False by done];
        run_monad.
Qed.

Ltac split_elems H :=
  repeat (apply elem_of_cons in H as [H|H]; [try subst|]);
  [..|by apply elem_of_nil in H].

Lemma kind_of_bad_syntax p t : p ∈ bad_syntax_prefixes → kind_of (p +:+ t) = Bad.
Proof.
  intros Hp. unfold kind_of.
  assert (Hw : flag_word (p +:+ t) = true) by (split_elems Hp; reflexivity).
  assert (Ht : String.eqb (p +:+ t) "--" = false) by (split_elems Hp; reflexivity).
  assert (Hv : version_switch (p +:+ t) = None).
  { unfold version_switch. rewrite !decide_False; [done| |].
    - intros (d & v & Hd & _ & E)%elem_switch_off.
      unfold dashes in Hd. split_elems Hd; split_elems Hp;
        rewrite ?append_cons, ?append_empty_l in E; discriminate E.
    - intros (d & o & Hd & _ & E)%elem_switch_on.
      unfold dashes in Hd. split_elems Hd; split_elems Hp;
        rewrite ?append_cons, ?append_empty_l in E; discriminate E. }
  assert (Hh : help_request (p +:+ t) = false).
  { apply not_true_is_false. intros (d & n & o & Hd & Hn & E)%help_request_spec.
    unfold dashes in Hd. split_elems Hd; split_elems Hn; split_elems Hp;
      rewrite ?append_cons, ?append_empty_l in E; discriminate E. }
  by rewrite Hw, Ht, Hv, Hh.
Qed.

Lemma parse_named_bad_syntax s c x rest w :
  c = "-"%char ∨ c = "="%char →
  parse_named s (String c x) rest w
  = (Ret (false, Some (errorString "bad flag syntax: %s" [s])),
     with_error "bad flag syntax: %s" [s] w).
Proof.
  intros Hc. unfold parse_named. rewrite bind_get_CommandLine.
  rewrite !byte_is_0.
  replace ((len (String c x) =? 0) || Ascii.eqb c "-" || Ascii.eqb c "=") with true
    by (by destruct Hc as [-> | ->]).
  run_monad.
Qed.

Lemma flag_word_test s :
  (len s <? 2) || negb (byte_is s 0 "-") = negb (flag_word s).
Proof. by destruct s as [|c [|c' t]]. Qed.

(** The three shapes of a flag word. *)
Lemma flag_word_cases s :
  flag_word s = true →
  s = "--"
  ∨ (∃ p t, p ∈ bad_syntax_prefixes ∧ s = p +:+ t)
  ∨ (∃ d n o, d ∈ dashes ∧ good_name n ∧ s = d +:+ n +:+ opt_value o).
Proof.
  destruct s as [|c0 [|c1 t]]; try done. simpl.
  intros ->%Ascii.eqb_eq.
  assert (Hgood : ∀ d c x, d ∈ dashes → c ≠ "-"%char → c ≠ "="%char →
            ∃ d' n o, d' ∈ dashes ∧ good_name n
                      ∧ d +:+ String c x = d' +:+ n +:+ opt_value o).
  { intros d c x Hd Hc Hc'. destruct (split_exists x) as (n & o & -> & Hn).
    exists d, (String c n), o. split; [done|]. split; [|done].
    split; [by eexists _, _|]. simpl. rewrite Hn.
    by apply Ascii.eqb_neq in Hc' as ->. }
  destruct (decide (c1 = "-"%char)) as [->|Hc1].
  - destruct t as [|c2 t]; [by left|]. right.
    destruct (decide (c2 = "-"%char)) as [->|Hc2].
    { left. exists "---", t. split; [|done]. unfold bad_syntax_prefixes. set_solver. }
    destruct (decide (c2 = "="%char)) as [->|Hc2'].
    { left. exists "--=", t. split; [|done]. unfold bad_syntax_prefixes. set_solver. }
    right. apply (Hgood "--"); [|done..]. unfold dashes. set_solver.
  - right. destruct (decide (c1 = "="%char)) as [->|Hc1'].
    { left. exists "-=", t. split; [|done]. unfold bad_syntax_prefixes. set_solver. }
    right. apply (Hgood "-"); [|done..]. unfold dashes. set_solver.
Qed.

Lemma parseOne_kind s rest w :
  registered w → args (CommandLine w) = s :: rest →
  parse_step (kind_of s) rest w (parseOne w).
Proof.
  intros Hreg Hargs.
  destruct (flag_word s) eqn:Hw.
  - destruct (flag_word_cases s Hw)
      as [-> | [(p & t & Hp & ->) | (d & n & o & Hd & Hn & ->)]].
    + unfold parseOne. rewrite bind_get_CommandLine, Hargs. reflexivity.
    + rewrite kind_of_bad_syntax by done.
      exists "bad flag syntax: %s", [p +:+ t], w. split; [|done].
      unfold bad_syntax_prefixes in Hp. split_elems Hp.
      * rewrite (parseOne_dash "=" t rest) by done.
        by apply parse_named_bad_syntax; right.
      * rewrite (parseOne_dashdash "-" t rest) by done.
        by apply parse_named_bad_syntax; left.
      * rewrite (parseOne_dashdash "=" t rest) by done.
        by apply parse_named_bad_syntax; right.
    + rewrite kind_of_flag by done.
      assert (parseOne w = parse_flag n o rest w) as ->.
      { destruct Hn as [(c & t & -> & Hc) Hn].
        unfold dashes in Hd. split_elems Hd.
        - rewrite (parseOne_dash c (t +:+ opt_value o) rest) by done.
          by apply (parse_named_flag _ c t o).
        - rewrite (parseOne_dashdash c (t +:+ opt_value o) rest) by done.
          by apply (parse_named_flag _ c t o). }
      unfold decide_flag, parse_flag.
      destruct (decide (n = "version")) as [->|Hv].
      * destruct o as [v|]; [|done].
        destruct (ParseBool v); [done|].
        eexists _, _, _. split; [reflexivity|done].
      * destruct (decide (n ∈ ["h"; "help"])); [done|].
        eexists _, _, _. split; [reflexivity|done].
  - unfold kind_of. rewrite Hw. simpl.
    unfold parseOne. rewrite bind_get_CommandLine, Hargs, flag_word_test, Hw.
    reflexivity.
Qed.

Lemma Parse_loop_step k w :
  Parse_loop (S k) w =
  match parseOne w with
  | (Ret (seen, err), w') =>
    if seen then Parse_loop k w'
    else match err with
         | None => (Ret None, w')
         | Some e =>
           match errorHandling (CommandLine w') with
           | ContinueOnError => (Ret (Some e), w')
           | ExitOnError => if is_ErrHelp e then (Exit 0%Z, w') else (Exit 2%Z, w')
           | PanicOnError => panic (Error e).1 (Error e).2 w'
           end
         end
  | (Exit c, w') => (Exit c, w')
  | (OutOfFuel, w') => (OutOfFuel, w')
  end.
Proof.
  simpl. unfold mbind at 1. unfold M_bind at 1.
  destruct (parseOne w) as [[[seen err]| |] w']; try done.
  destruct seen; [done|]. destruct err as [e|]; [|done].
  rewrite bind_get_CommandLine.
  destruct (errorHandling (CommandLine w')); try done. by destruct (is_ErrHelp e).
Qed.

Lemma Parse_loop_scan argv : ∀ fuel w v,
  registered w → errorHandling (CommandLine w) = ExitOnError →
  heap w = [v] → args (CommandLine w) = argv → length argv < fuel →
  loop_outcome (scan v argv) w (Parse_loop fuel w).
Proof.
  induction argv as [|s rest IH]; intros fuel w v Hreg Hexit Hheap Hargs Hfuel;
    (destruct fuel as [|k]; [lia|]); rewrite Parse_loop_step.
  - unfold parseOne. rewrite bind_get_CommandLine, Hargs. by exists w.
  - pose proof (parseOne_kind s rest w Hreg Hargs) as Hstep.
    simpl scan. destruct (kind_of s); simpl in Hstep.
    + rewrite Hstep. by exists w.
    + rewrite Hstep. by eexists.
    + rewrite Hstep.
      assert (Hnext : loop_outcome (scan v0 rest) (with_switch v0 (with_args rest w))
                        (Parse_loop k (with_switch v0 (with_args rest w)))).
      { apply IH; try done; simpl in *; [by rewrite Hheap | lia]. }
      destruct (scan v0 rest); simpl in *; exact Hnext.
    + rewrite Hstep. simpl. rewrite Hexit. by eexists.
    + destruct Hstep as (format & operands & w0 & -> & H0 & H1 & H2 & H3 & H4 & H5).
      simpl. rewrite H5, Hexit. eexists _, format, operands.
      split; [reflexivity|]. simpl. by rewrite H0, H1, H2, H3, H4.
Qed.

Lemma main_boot b prog argv :
  main b (boot prog argv)
  = after_Parse b (Parse_loop (S (length argv)) (parse_ready prog argv)).
Proof.
  unfold main, after_Parse.
  change ((Bool "version" false "show version" ≫= _) (boot prog argv))
    with ((Parse ≫= λ _, v ← load 0;
                         if (v : bool) then Println (version b)
                         else g ← call_Hello "World"; Println g)
            (mkWorld prog argv [false]
               (mkFlagSet prog false ∅ {["version" := version_flag]} [] ExitOnError)
               "" [] [])).
  unfold mbind at 1. unfold M_bind at 1.
  change (Parse (mkWorld prog argv [false]
               (mkFlagSet prog false ∅ {["version" := version_flag]} [] ExitOnError)
               "" [] []))
    with (match Parse_loop (S (length argv)) (parse_ready prog argv) with
          | (Ret _, w') => (Ret tt, w')
          | (Exit c, w') => (Exit c, w')
          | (OutOfFuel, w') => (OutOfFuel, w')
          end).
  by destruct (Parse_loop _ _) as [[| |] ?].
Qed.

Lemma run_scan b prog argv :
  match scan false argv with
  | Accept v => run b prog argv = if v then version_outcome b else greeting_outcome
  | HelpShown =>
    run b prog argv
    = mkOutcome (Some 0%Z) "" [UsageOf prog; Defaults {["version" := version_flag]}] []
  | Rejected _ => ∃ format operands,
    run b prog argv
    = mkOutcome (Some 2%Z) ""
        [ErrLine format operands; UsageOf prog; Defaults {["version" := version_flag]}] []
  end.
Proof.
  unfold run. rewrite main_boot.
  pose proof (Parse_loop_scan argv (S (length argv)) (parse_ready prog argv) false) as H.
  specialize (H eq_refl eq_refl eq_refl eq_refl (Nat.lt_succ_diag_r _)).
  destruct (scan false argv) as [v| |bad]; unfold loop_outcome in H.
  - destruct H as (w' & -> & Hheap & Hout & Herr & Hlog).
    unfold after_Parse, load, mbind, M_bind, get_heap. simpl. rewrite Hheap. simpl.
    destruct v; simpl; rewrite Hout, Herr, ?Hlog; reflexivity.
  - destruct H as (w' & -> & Hout & Herr & Hlog). simpl.
    rewrite Hout, Herr, Hlog. reflexivity.
  - destruct H as (w' & format & operands & -> & Hout & Herr & Hlog). simpl.
    exists format, operands. rewrite Hout, Herr, Hlog. reflexivity.
Qed.

(** ** The entry point *)

Lemma version_switch_kind s v : version_switch s = Some v → kind_of s = Switch v.
Proof.
  unfold version_switch. repeat case_decide; intros [= <-].
  - match goal with H : s ∈ switch_on_spellings |- _ =>
      vm_compute in H; split_elems H; reflexivity end.
  - match goal with H : s ∈ switch_off_spellings |- _ =>
      vm_compute in H; split_elems H; reflexivity end.
Qed.

Lemma kind_switch_version s v : kind_of s = Switch v → version_switch s = Some v.
Proof.
  unfold kind_of. destruct (flag_word s); [|done]. simpl.
  destruct (String.eqb s "--"); [done|].
  destruct (version_switch s); [congruence|]. by destruct (help_request s).
Qed.

(** A command line is rejected exactly when a bad flag word comes after
    nothing but spellings of the version switch. *)
Lemma scan_rejected argv : ∀ v bad,
  scan v argv = Rejected bad ↔
  ∃ pre rest, argv = pre ++ bad :: rest
              ∧ Forall (λ s, is_Some (version_switch s)) pre ∧ kind_of bad = Bad.
Proof.
  induction argv as [|s argv IH]; intros v bad; simpl.
  - split; [done|]. intros (pre & rest & E & _). by destruct pre.
  - split.
    + destruct (kind_of s) eqn:Hk; try done.
      * intros (pre & rest & -> & Hpre & Hbad)%IH.
        exists (s :: pre), rest. split; [done|]. split; [|done].
        constructor; [|done]. apply kind_switch_version in Hk. by rewrite Hk.
      * intros [= <-]. by exists [], argv.
    + intros (pre & rest & E & Hpre & Hbad). destruct pre as [|s' pre].
      * injection E as -> ->. by rewrite Hbad.
      * injection E as <- ->. apply Forall_cons in Hpre as [[v' Hs] Hpre].
        rewrite (version_switch_kind _ _ Hs). apply IH. by exists pre, rest.
Qed.

(** Each spelling of the switch that turns it on, given alone, leaves it
    on. *)
Lemma scan_switch_on s : s ∈ switch_on_spellings → scan false [s] = Accept true.
Proof.
  intros Hs. assert (Hv : version_switch s = Some true)
    by (unfold version_switch; by rewrite decide_True).
  simpl. by rewrite (version_switch_kind _ _ Hv).
Qed.

(** C2.  When the command line, read from the left, leaves the version
    switch on, the process prints the build-time version (one line, by
    [fmt.Println]) and nothing else, neither on standard output nor on
    standard error, does not call [Hello], and exits with status 0. *)
Theorem version_switch_prints_version (b : Build) (prog : string) (argv : list string) :
  scan false argv = Accept true →
  run b prog argv = version_outcome b
  ∧ status (run b prog argv) = Some 0%Z
  ∧ out (run b prog argv) = version b +:+ newline
  ∧ err (run b prog argv) = []
  ∧ greeted (run b prog argv) = [].
Proof.
  intros H. pose proof (run_scan b prog argv) as Hrun. rewrite H in Hrun.
  by rewrite Hrun.
Qed.

Lemma version_switch_prints_version_witness :
  scan false ["--version"] = Accept true
  ∧ run (mkBuild (Some "v1.2.3")) "app" ["--version"]
    = mkOutcome (Some 0%Z) ("v1.2.3" +:+ newline) [] [].
Proof.
  split; [reflexivity|].
  apply (version_switch_prints_version (mkBuild (Some "v1.2.3")) "app" ["--version"]).
  reflexivity.
Defined.

(** C3.  With no command-line arguments the process calls [Hello] once,
    with the literal "World", prints "Hello, World!" (one line) on standard
    output, nothing on standard error, and exits with status 0. *)
Theorem no_arguments_greets (b : Build) (prog : string) :
  run b prog [] = greeting_outcome
  ∧ status (run b prog []) = Some 0%Z
  ∧ out (run b prog []) = "Hello, World!" +:+ newline
  ∧ err (run b prog []) = []
  ∧ greeted (run b prog []) = [("World", Hello "World")].
Proof.
  pose proof (run_scan b prog []) as Hrun. simpl in Hrun. by rewrite Hrun.
Qed.

(** C8.  When the build injects no value for [main.version], the version
    is the placeholder "dev", and that is what the version switch prints. *)
Theorem version_placeholder (b : Build) (prog : string) (argv : list string) :
  X_main_version b = None →
  scan false argv = Accept true →
  version b = "dev" ∧ out (run b prog argv) = "dev" +:+ newline.
Proof.
  intros Hb H. pose proof (run_scan b prog argv) as Hrun. rewrite H in Hrun.
  rewrite Hrun. unfold version_outcome, version. simpl. by rewrite Hb.
Qed.

Lemma version_placeholder_witness :
  X_main_version (mkBuild None) = None
  ∧ scan false ["--version"] = Accept true
  ∧ version (mkBuild None) = "dev"
  ∧ out (run (mkBuild None) "app" ["--version"]) = "dev" +:+ newline.
Proof.
  split; [reflexivity|]. split; [reflexivity|].
  apply (version_placeholder (mkBuild None) "app" ["--version"]); reflexivity.
Defined.

(** C9.  A first argument that is not a flag word (a bare word, a lone
    dash, the empty string) ends the flags: it and everything after it are
    accepted in silence, and the process greets and exits with status 0. *)
Theorem positional_arguments_accepted (b : Build) (prog a : string) (rest : list string) :
  flag_word a = false →
  run b prog (a :: rest) = greeting_outcome
  ∧ status (run b prog (a :: rest)) = Some 0%Z
  ∧ out (run b prog (a :: rest)) = "Hello, World!" +:+ newline
  ∧ err (run b prog (a :: rest)) = [].
Proof.
  intros Ha. pose proof (run_scan b prog (a :: rest)) as Hrun.
  simpl in Hrun. unfold kind_of in Hrun. rewrite Ha in Hrun. simpl in Hrun.
  by rewrite Hrun.
Qed.

Lemma positional_arguments_accepted_witness :
  flag_word "extra" = false
  ∧ run (mkBuild None) "app" ["extra"; "words"] = greeting_outcome.
Proof.
  split; [reflexivity|].
  apply (positional_arguments_accepted (mkBuild None) "app" "extra" ["words"]).
  reflexivity.
Defined.

(** C4, as stated, fails.  [-h] is a flag the program does not define, yet
    the process prints the usage message and exits with status 0; and
    [--bogus] after a positional argument is never parsed: the process
    greets, in silence, and exits with status 0. *)
Lemma unrecognized_flags_exit_0 :
  (flag_word "-h" = true
   ∧ version_switch "-h" = None
   ∧ status (run (mkBuild None) "app" ["-h"]) = Some 0%Z
   ∧ err (run (mkBuild None) "app" ["-h"])
     = [UsageOf "app"; Defaults {["version" := version_flag]}])
  ∧ (flag_word "--bogus" = true
     ∧ version_switch "--bogus" = None
     ∧ run (mkBuild None) "app" ["World"; "--bogus"] = greeting_outcome).
Proof. by vm_compute. Qed.

(** C4, amended.  When the flags read so far are spellings of the version
    switch and the next word is a bad flag word (bad syntax, a name that is
    not defined and is not a help request, or a value of the switch that is
    not a boolean), the process prints a diagnostic line and the usage
    message on standard error, nothing on standard output, does not greet,
    and exits with status 2.  In every other case the exit status is 0. *)
Theorem bad_flag_exits_2 (b : Build) (prog : string) (argv : list string) :
  (∀ pre bad rest,
      argv = pre ++ bad :: rest →
      Forall (λ s, is_Some (version_switch s)) pre →
      kind_of bad = Bad →
      ∃ format operands,
        run b prog argv
        = mkOutcome (Some 2%Z) ""
            [ErrLine format operands; UsageOf prog;
             Defaults {["version" := version_flag]}] [])
  ∧ (status (run b prog argv) = Some 0%Z
     ∨ status (run b prog argv) = Some 2%Z
       ∧ ∃ pre bad rest,
           argv = pre ++ bad :: rest
           ∧ Forall (λ s, is_Some (version_switch s)) pre
           ∧ kind_of bad = Bad).
Proof.
  pose proof (run_scan b prog argv) as Hrun. split.
  - intros pre bad rest E Hpre Hbad.
    assert (Hs : scan false argv = Rejected bad)
      by (apply scan_rejected; eauto).
    by rewrite Hs in Hrun.
  - destruct (scan false argv) as [v| |bad] eqn:Hs.
    + left. rewrite Hrun. by destruct v.
    + left. by rewrite Hrun.
    + right. destruct Hrun as (format & operands & ->). split; [done|].
      apply scan_rejected in Hs as (pre & rest & ? & ? & ?). eauto 6.
Qed.

Lemma bad_flag_exits_2_witness :
  ∃ format operands,
    run (mkBuild None) "app" ["-version=false"; "--bogus"; "x"]
    = mkOutcome (Some 2%Z) ""
        [ErrLine format operands; UsageOf "app";
         Defaults {["version" := version_flag]}] [].
Proof.
  apply (proj1 (bad_flag_exits_2 (mkBuild None) "app" ["-version=false"; "--bogus"; "x"])
           ["-version=false"] "--bogus" ["x"]).
  - reflexivity.
  - constructor; [|constructor]. exists false. reflexivity.
  - reflexivity.
Defined.

(** ** Further properties of the greeting function *)

Lemma append_inj_l (p s t : string) : p +:+ s = p +:+ t → s = t.
Proof.
  induction p as [|c p IH]; [done|].
  rewrite !append_cons. intros [= E]. auto.
Qed.

(** After its seven-byte prefix, [Hello n] is [n] followed by "!". *)
Lemma Hello_after_prefix (n : string) : slice_from 7 (Hello n) = n +:+ "!".
Proof.
  unfold Hello. rewrite append_assoc.
  change 7 with (len "Hello, "). apply slice_from_append.
Qed.

(** X2.  The bytes of [Hello n] between the prefix and the final "!" are
    exactly [n]: [Hello(n)[7 : len(Hello(n)) - 1] = n]. *)
Theorem Hello_name_recovered (n : string) :
  slice_to (len (Hello n) - 8) (slice_from 7 (Hello n)) = n.
Proof.
  rewrite Hello_after_prefix. unfold Hello. rewrite !len_append.
  change (len "Hello, " + len n + len "!" - 8) with (7 + len n + 1 - 8).
  replace (7 + len n + 1 - 8) with (len n) by lia.
  apply slice_to_append.
Qed.

(** X1.  [Hello] is injective: different names never get the same
    greeting. *)
Theorem Hello_injective (n1 n2 : string) : Hello n1 = Hello n2 → n1 = n2.
Proof.
  intros E. apply (f_equal (slice_from 7)) in E.
  rewrite !Hello_after_prefix in E.
  assert (Hlen : len n1 = len n2).
  { apply (f_equal len) in E. rewrite !len_append in E. lia. }
  rewrite <- (slice_to_append n1 "!"), <- (slice_to_append n2 "!").
  by rewrite E, Hlen.
Qed.

Lemma Hello_injective_witness : Hello "Go" = Hello "Go" ∧ "Go" = "Go".
Proof.
  split; [reflexivity|]. apply (Hello_injective "Go" "Go"). reflexivity.
Defined.

(** ** The table-driven test *)

Lemma range_tests_reports (tests : list greet_test.row) : ∀ t : greet_test.T,
  greet_test.range_tests tests t
  = greet_test.mkT (greet_test.ran t ++ (greet_test.name <$> tests))
      (greet_test.errors t ++ (tests ≫= greet_test.mismatch)).
Proof.
  induction tests as [|tc tests IH]; intros t.
  - simpl. rewrite !app_nil_r. by destruct t.
  - simpl. rewrite IH. unfold greet_test.Run, greet_test.check_row, greet_test.mismatch.
    destruct (String.eqb (Hello (greet_test.name tc)) (greet_test.want tc));
      simpl; by rewrite <- !app_assoc.
Qed.

(** X3.  The test loop, over any table, runs one subtest per row, in order,
    and fails exactly when some row expects something else than "Hello, ",
    the row's name and "!"; the table of [TestHello] has no such row, so
    [TestHello] passes. *)
Theorem TestHello_sound_and_passes :
  (∀ (tests : list greet_test.row) (t : greet_test.T),
      greet_test.Failed t = false →
      greet_test.ran (greet_test.range_tests tests t)
      = greet_test.ran t ++ (greet_test.name <$> tests)
      ∧ (greet_test.Failed (greet_test.range_tests tests t) = false
         ↔ Forall (λ tc, greet_test.want tc = "Hello, " +:+ greet_test.name tc +:+ "!")
                  tests))
  ∧ greet_test.TestHello (greet_test.mkT [] [])
    = greet_test.mkT ["World"; "Go"; ""] [].
Proof.
  split; [|reflexivity].
  intros tests t Ht. rewrite range_tests_reports. simpl. split; [done|].
  unfold greet_test.Failed in *. simpl.
  destruct (greet_test.errors t) as [|e es]; [|done]. simpl.
  induction tests as [|tc tests IH].
  - split; [constructor|done].
  - rewrite Forall_cons. simpl. unfold greet_test.mismatch at 1.
    destruct (String.eqb_spec (Hello (greet_test.name tc)) (greet_test.want tc)) as [E|E].
    + simpl. rewrite IH. unfold Hello in E. rewrite append_assoc in E.
      split; [by intros ?; split | by intros [_ ?]].
    + simpl. split; [done|]. intros [E' _]. exfalso. apply E.
      unfold Hello. by rewrite append_assoc.
Qed.

Lemma TestHello_sound_and_passes_witness :
  greet_test.Failed (greet_test.mkT [] []) = false
  ∧ greet_test.Failed
      (greet_test.range_tests [greet_test.mkRow "Go" "Hello, Go"] (greet_test.mkT [] []))
    ≠ false.
Proof.
  split; [reflexivity|]. intros H.
  apply (proj1 TestHello_sound_and_passes
           [greet_test.mkRow "Go" "Hello, Go"] (greet_test.mkT [] []) eq_refl) in H.
  apply Forall_cons in H as [H _]. discriminate H.
Defined.

(** ** Further properties of the entry point *)

Lemma scan_switches pre : ∀ v tail,
  Forall (λ s, is_Some (version_switch s)) pre →
  scan v (pre ++ tail) = scan (switch_after v pre) tail.
Proof.
  induction pre as [|s pre IH]; intros v tail Hpre; [done|].
  apply Forall_cons in Hpre as [[v' Hs] Hpre].
  simpl. rewrite (version_switch_kind _ _ Hs), Hs. simpl. by apply IH.
Qed.

Lemma scan_flags_end v post : flags_end post = true → scan v post = Accept v.
Proof.
  destruct post as [|a post]; [done|]. simpl. unfold kind_of.
  destruct (flag_word a); simpl; [|done].
  by intros ->.
Qed.

Lemma help_request_kind h : help_request h = true → kind_of h = Help.
Proof.
  intros (d & n & o & Hd & Hn & ->)%help_request_spec.
  rewrite kind_of_flag by auto using good_name_help.
  unfold decide_flag. rewrite decide_False, decide_True; [done..|].
  intros ->. by split_elems Hn.
Qed.

(** X4.  The version switch may be repeated, and the last spelling decides:
    after any number of spellings of the switch, a final one that turns it
    on makes the process print its version, and one that turns it off makes
    it greet. *)
Theorem last_switch_decides (b : Build) (prog : string) (pre : list string)
    (s : string) (v : bool) :
  Forall (λ s, is_Some (version_switch s)) pre →
  version_switch s = Some v →
  run b prog (pre ++ [s]) = if v then version_outcome b else greeting_outcome.
Proof.
  intros Hpre Hs. pose proof (run_scan b prog (pre ++ [s])) as Hrun.
  rewrite scan_switches in Hrun by done. simpl in Hrun.
  by rewrite (version_switch_kind _ _ Hs) in Hrun.
Qed.

Lemma last_switch_decides_witness :
  run (mkBuild None) "app" (["--version"; "-version=T"] ++ ["--version=false"])
  = greeting_outcome.
Proof.
  apply (last_switch_decides (mkBuild None) "app" ["--version"; "-version=T"]
           "--version=false" false).
  - repeat constructor; by exists true.
  - reflexivity.
Defined.

(** X5.  Once the flags have ended (at a word that is not a flag word, or
    at the terminator [--]), that word and everything after it are ignored,
    whatever they are: the process behaves as if given the switches before
    them only. *)
Theorem words_after_flags_ignored (b : Build) (prog : string) (pre post : list string) :
  Forall (λ s, is_Some (version_switch s)) pre →
  flags_end post = true →
  run b prog (pre ++ post) = run b prog pre.
Proof.
  intros Hpre Hpost.
  pose proof (run_scan b prog (pre ++ post)) as H1.
  pose proof (run_scan b prog pre) as H2.
  rewrite scan_switches, scan_flags_end in H1 by done.
  pose proof (scan_switches pre false [] Hpre) as E.
  rewrite app_nil_r in E. simpl in E. rewrite E in H2.
  by rewrite H1, H2.
Qed.

Lemma words_after_flags_ignored_witness :
  run (mkBuild None) "app" (["--version"] ++ ["--"; "--bogus"; "-h"])
  = run (mkBuild None) "app" ["--version"].
Proof.
  apply (words_after_flags_ignored (mkBuild None) "app" ["--version"]
           ["--"; "--bogus"; "-h"]).
  - repeat constructor; by exists true.
  - reflexivity.
Defined.

(** X6.  A help request ([-h], [-help], [--h], [--help], alone or with
    [=value]) that follows nothing but spellings of the version switch
    wins over them and over everything after it: the process prints the
    usage message on standard error, nothing on standard output, does not
    greet, and exits with status 0. *)
Theorem help_request_shows_usage (b : Build) (prog : string) (pre : list string)
    (h : string) (rest : list string) :
  Forall (λ s, is_Some (version_switch s)) pre →
  help_request h = true →
  run b prog (pre ++ h :: rest) = usage_outcome prog.
Proof.
  intros Hpre Hh. pose proof (run_scan b prog (pre ++ h :: rest)) as Hrun.
  rewrite scan_switches in Hrun by done. simpl in Hrun.
  by rewrite (help_request_kind _ Hh) in Hrun.
Qed.

Lemma help_request_shows_usage_witness :
  run (mkBuild None) "app" (["--version"] ++ "--help=now" :: ["--bogus"])
  = usage_outcome "app".
Proof.
  apply (help_request_shows_usage (mkBuild None) "app" ["--version"] "--help=now"
           ["--bogus"]).
  - repeat constructor; by exists true.
  - reflexivity.
Defined.

(** X7.  On every command line the process writes to at most one of its
    two output streams, and it calls [Hello] at most once, with "World",
    and only to print the result. *)
Theorem one_stream_one_greeting (b : Build) (prog : string) (argv : list string) :
  (out (run b prog argv) = "" ∨ err (run b prog argv) = [])
  ∧ (greeted (run b prog argv) = []
     ∨ greeted (run b prog argv) = [("World", Hello "World")]
       ∧ out (run b prog argv) = Hello "World" +:+ newline
       ∧ status (run b prog argv) = Some 0%Z).
Proof.
  pose proof (run_scan b prog argv) as Hrun.
  destruct (scan false argv) as [[]| |bad].
  - rewrite Hrun. split; [by right | by left].
  - rewrite Hrun. split; [by right | by right].
  - rewrite Hrun. split; [by left | by left].
  - destruct Hrun as (format & operands & ->). split; [by left | by left].
Qed.

Lemma Parse_loop_same (w : World) (v : bool) (argv : list string) :
  registered w → errorHandling (CommandLine w) = ExitOnError →
  heap w = [v] → args (CommandLine w) = argv →
  match scan v argv with
  | Accept v' => ∃ w', Parse_loop (S (length argv)) w = (Ret None, w') ∧ heap w' = [v']
  | _ => ∃ c w', Parse_loop (S (length argv)) w = (Exit c, w')
  end.
Proof.
  intros Hreg Hexit Hheap Hargs.
  pose proof (Parse_loop_scan argv (S (length argv)) w v Hreg Hexit Hheap Hargs
                (Nat.lt_succ_diag_r _)) as H.
  destruct (scan v argv); unfold loop_outcome in H.
  - destruct H as (w' & ? & ? & _). eauto.
  - destruct H as (w' & ? & _). eauto.
  - destruct H as (w' & ? & ? & ? & _). eauto.
Qed.

(** X8.  The value linked in for [main.version] matters only when the
    version is printed: two builds behave alike on a command line unless
    both print their version. *)
Theorem build_matters_only_for_version (b b' : Build) (prog : string) (argv : list string) :
  run b prog argv = run b' prog argv
  ∨ run b prog argv = version_outcome b ∧ run b' prog argv = version_outcome b'.
Proof.
  pose proof (run_scan b prog argv) as H. pose proof (run_scan b' prog argv) as H'.
  unfold run in *. rewrite !main_boot in *.
  pose proof (Parse_loop_same (parse_ready prog argv) false argv
                eq_refl eq_refl eq_refl eq_refl) as HP.
  destruct (scan false argv) as [[]| |bad].
  - right. by split.
  - left. by rewrite H, H'.
  - left. by rewrite H, H'.
  - left. destruct HP as (c & w' & ->). reflexivity.
Qed.

(** *** The diagnostics *)

(** The loop of [Parse] over spellings of the switch: it reads them all and
    goes on with the words after them, having written nothing. *)
Lemma Parse_loop_skip pre : ∀ tail fuel w v,
  Forall (λ s, is_Some (version_switch s)) pre →
  registered w → errorHandling (CommandLine w) = ExitOnError →
  heap w = [v] → args (CommandLine w) = pre ++ tail →
  length (pre ++ tail) < fuel →
  ∃ w' k,
    Parse_loop fuel w = Parse_loop k w' ∧ length tail < k
    ∧ registered w' ∧ errorHandling (CommandLine w') = ExitOnError
    ∧ args (CommandLine w') = tail
    ∧ os_Args0 w' = os_Args0 w ∧ stdout w' = stdout w
    ∧ stderr w' = stderr w ∧ hello_log w' = hello_log w.
Proof.
  induction pre as [|s pre IH]; intros tail fuel w v Hpre Hreg Hexit Hheap Hargs Hfuel.
  - by exists w, fuel.
  - apply Forall_cons in Hpre as [[v' Hs] Hpre].
    destruct fuel as [|k]; [lia|]. rewrite Parse_loop_step.
    pose proof (parseOne_kind s (pre ++ tail) w Hreg Hargs) as Hstep.
    rewrite (version_switch_kind _ _ Hs) in Hstep. simpl in Hstep. rewrite Hstep.
    destruct (IH tail k (with_switch v' (with_args (pre ++ tail) w)) v')
      as (w' & k' & E & Hk & ? & ? & ? & ? & ? & ? & ?); try done.
    + simpl. by rewrite Hheap.
    + simpl in Hfuel. lia.
    + exists w', k'. by rewrite E.
Qed.

Lemma parseOne_flag d n o rest w :
  d ∈ dashes → good_name n → registered w →
  args (CommandLine w) = (d +:+ n +:+ opt_value o) :: rest →
  parseOne w = parse_flag n o rest w.
Proof.
  intros Hd [(c & t & -> & Hc) Hn] Hreg Hargs.
  unfold dashes in Hd. split_elems Hd.
  - rewrite (parseOne_dash c (t +:+ opt_value o) rest) by done.
    by apply (parse_named_flag _ c t o).
  - rewrite (parseOne_dashdash c (t +:+ opt_value o) rest) by done.
    by apply (parse_named_flag _ c t o).
Qed.

Lemma parseOne_bad_syntax p t rest w :
  p ∈ bad_syntax_prefixes →
  args (CommandLine w) = (p +:+ t) :: rest →
  parseOne w
  = (Ret (false, Some (errorString "bad flag syntax: %s" [p +:+ t])),
     with_error "bad flag syntax: %s" [p +:+ t] w).
Proof.
  intros Hp Hargs. unfold bad_syntax_prefixes in Hp. split_elems Hp.
  - rewrite (parseOne_dash "=" t rest) by done.
    by apply parse_named_bad_syntax; right.
  - rewrite (parseOne_dashdash "-" t rest) by done.
    by apply parse_named_bad_syntax; left.
  - rewrite (parseOne_dashdash "=" t rest) by done.
    by apply parse_named_bad_syntax; right.
Qed.

(** The process when [parseOne] fails on the word [bad] with the error
    [format], [operands]. *)
Lemma run_first_bad b prog pre bad rest format operands :
  Forall (λ s, is_Some (version_switch s)) pre →
  (∀ w, registered w → args (CommandLine w) = bad :: rest →
        ∃ w0, parseOne w = (Ret (false, Some (errorString format operands)),
                            with_error format operands w0)
              ∧ same_setup w0 w) →
  run b prog (pre ++ bad :: rest) = rejected_outcome prog format operands.
Proof.
  intros Hpre Hbad. unfold run. rewrite main_boot.
  destruct (Parse_loop_skip pre (bad :: rest) (S (length (pre ++ bad :: rest)))
              (parse_ready prog (pre ++ bad :: rest)) false Hpre
              eq_refl eq_refl eq_refl eq_refl (Nat.lt_succ_diag_r _))
    as (w' & k & -> & Hk & Hreg & Hexit & Hargs & H0 & Hout & Herr & Hlog).
  destruct k as [|k]; [simpl in Hk; lia|]. rewrite Parse_loop_step.
  destruct (Hbad w' Hreg Hargs) as (w0 & -> & S0 & S1 & S2 & S3 & S4 & S5).
  simpl. rewrite S5, Hexit. simpl.
  rewrite S0, S1, S2, S3, S4, H0, Hout, Herr, Hlog, Hreg. reflexivity.
Qed.

(** X9.  A value of the version switch that is not a spelling
    [strconv.ParseBool] accepts is rejected: the diagnostic names the value
    and the flag, the usage message follows, nothing is printed on standard
    output, and the exit status is 2 (also when the switch was given
    properly before). *)
Theorem invalid_boolean_value_rejected (b : Build) (prog : string) (pre : list string)
    (d v : string) (rest : list string) :
  Forall (λ s, is_Some (version_switch s)) pre →
  d ∈ dashes →
  ParseBool v = None →
  run b prog (pre ++ (d +:+ "version=" +:+ v) :: rest)
  = rejected_outcome prog "invalid boolean value %q for -%s: %v"
      [v; "version"; "parse error"].
Proof.
  intros Hpre Hd Hv. apply run_first_bad; [done|].
  intros w Hreg Hargs.
  rewrite (parseOne_flag d "version" (Some v) rest w Hd good_name_version Hreg)
    by (rewrite Hargs; f_equal; by rewrite <- !append_assoc).
  unfold parse_flag. rewrite decide_True by done. rewrite Hv.
  by eexists.
Qed.

Lemma invalid_boolean_value_rejected_witness :
  run (mkBuild None) "app" (["--version"] ++ ("-" +:+ "version=" +:+ "yes") :: ["x"])
  = rejected_outcome "app" "invalid boolean value %q for -%s: %v"
      ["yes"; "version"; "parse error"].
Proof.
  apply (invalid_boolean_value_rejected (mkBuild None) "app" ["--version"] "-" "yes" ["x"]).
  - repeat constructor; by exists true.
  - by apply elem_of_cons; left.
  - reflexivity.
Defined.

(** X10.  A flag whose name is not [version] and is not a help request is
    rejected as not defined: the diagnostic names the flag without its
    dashes and without its value, the usage message follows, nothing is
    printed on standard output, and the exit status is 2. *)
Theorem undefined_flag_rejected (b : Build) (prog : string) (pre : list string)
    (d n : string) (o : option string) (rest : list string) :
  Forall (λ s, is_Some (version_switch s)) pre →
  d ∈ dashes →
  good_name n →
  n ∉ ["version"; "h"; "help"] →
  run b prog (pre ++ (d +:+ n +:+ opt_value o) :: rest)
  = rejected_outcome prog "flag provided but not defined: -%s" [n].
Proof.
  intros Hpre Hd Hn Hnot. apply run_first_bad; [done|].
  intros w Hreg Hargs.
  rewrite (parseOne_flag d n o rest w Hd Hn Hreg Hargs).
  unfold parse_flag. rewrite !decide_False.
  - by eexists.
  - intros Hh. apply Hnot. by apply elem_of_cons; right.
  - intros ->. apply Hnot. by apply elem_of_cons; left.
Qed.

Lemma undefined_flag_rejected_witness :
  run (mkBuild None) "app" ([] ++ ("--" +:+ "verbose" +:+ opt_value (Some "3")) :: [])
  = rejected_outcome "app" "flag provided but not defined: -%s" ["verbose"].
Proof.
  apply (undefined_flag_rejected (mkBuild None) "app" [] "--" "verbose" (Some "3") []).
  - constructor.
  - apply elem_of_cons; right. by apply elem_of_cons; left.
  - split; [by eexists _, _ | reflexivity].
  - by apply (bool_decide_unpack _).
Defined.

(** X11.  A flag word whose name is empty or starts with a dash or with
    [=] (the words that begin with [-=], [---] or [--=]) is rejected for
    its syntax: the diagnostic quotes the whole word, the usage message
    follows, nothing is printed on standard output, and the exit status
    is 2. *)
Theorem bad_flag_syntax_rejected (b : Build) (prog : string) (pre : list string)
    (p t : string) (rest : list string) :
  Forall (λ s, is_Some (version_switch s)) pre →
  p ∈ bad_syntax_prefixes →
  run b prog (pre ++ (p +:+ t) :: rest)
  = rejected_outcome prog "bad flag syntax: %s" [p +:+ t].
Proof.
  intros Hpre Hp. apply run_first_bad; [done|].
  intros w Hreg Hargs. exists w. split; [|done].
  by apply (parseOne_bad_syntax p t rest).
Qed.

Lemma bad_flag_syntax_rejected_witness :
  run (mkBuild None) "app" ([] ++ ("---" +:+ "version") :: ["--version"])
  = rejected_outcome "app" "bad flag syntax: %s" ["---version"].
Proof.
  apply (bad_flag_syntax_rejected (mkBuild None) "app" [] "---" "version" ["--version"]).
  - constructor.
  - apply elem_of_cons; right. by apply elem_of_cons; left.
Defined.
